(** * The session relay server: a shallow embedding and its properties

    The server keeps four module-level variables (the active WebSocket
    connection, the inbound message queue, the agent stream handle and the
    stored query configuration) and reacts to HTTP requests, WebSocket
    events, events of the agent SDK and timers.  Bun runs all handlers on
    one cooperative thread, so each handler is one atomic transition of
    the state below, and a run of the server is a list of events. *)

From Stdlib Require Import Ascii.
From stdpp Require Import base option list strings gmap pretty.

(** ** JavaScript values

    Bodies of [POST /config] are whatever [req.json()] produced, and the
    server casts them to [QueryConfig] without a check, so the stored
    configuration ranges over every JSON value.  [VUndefined] and
    [VClosure] only arise on the server's side (a missing property, the
    [stderr] callback of the options).  Numbers only ever meet a truth
    test here; they are kept as integers. *)

#[local] Set Warnings "-register-all".

Inductive value : Type :=
  | VUndefined
  | VNull
  | VBool (b : bool)
  | VNum (n : Z)
  | VStr (s : string)
  | VArr (items : list value)
  | VObj (fields : gmap string value)
  | VClosure (name : string).

(** ToBoolean. *)
Definition truthy (v : value) : bool :=
  match v with
  | VUndefined | VNull => false
  | VBool b => b
  | VNum n => negb (n =? 0)%Z
  | VStr s => negb (String.eqb s "")
  | VArr _ | VObj _ | VClosure _ => true
  end.

(** Keys ["0"], ["1"], ... paired with the elements of a list, as the own
    properties of an array or of a string. *)
Fixpoint indexed {A} (i : nat) (l : list A) : list (string * A) :=
  match l with
  | [] => []
  | x :: l' => (pretty i, x) :: indexed (S i) l'
  end.

Fixpoint chars (s : string) : list value :=
  match s with
  | EmptyString => []
  | String c s' => VStr (String c EmptyString) :: chars s'
  end.

(** The own enumerable properties of a value, as the spread [...v] inside
    an object literal copies them.  [null], [undefined] and the other
    primitives contribute nothing; a string contributes its characters
    and an array its elements, both under their indices. *)
Definition own_props (v : value) : gmap string value :=
  match v with
  | VObj fields => fields
  | VArr items => list_to_map (indexed 0 items)
  | VStr s => list_to_map (indexed 0 (chars s))
  | _ => ∅
  end.

(** Reading a property [v.k] for a key that no built-in prototype defines
    (the server reads [clientId] and [anthropicApiKey] only).  [None] is
    the [TypeError] that reading a property of [null] or [undefined]
    throws. *)
Definition get_prop (v : value) (k : string) : option value :=
  match v with
  | VUndefined | VNull => None
  | VObj fields => Some (default VUndefined (fields !! k))
  | _ => Some VUndefined
  end.

(** An object literal is evaluated left to right: a plain property
    defines its key, a spread copies the own properties of its operand,
    and in both cases a key defined earlier is overwritten. *)
Inductive member : Type :=
  | Field (k : string) (v : value)
  | Spread (v : value).

Definition define (o : gmap string value) (m : member) : gmap string value :=
  match m with
  | Field k v => <[k := v]> o
  | Spread v => own_props v ∪ o
  end.

Definition literal (ms : list member) : gmap string value :=
  foldl define ∅ ms.

(** [a && b]. *)
Definition js_and (a b : value) : value := if truthy a then b else a.

(** ** Messages, requests and effects *)

(** [WSOutputMessage], the tagged union the server sends to a client. *)
Inductive WSOutputMessage : Type :=
  | Connected
  | Info (data : string)
  | SdkMessage (data : value)
  | Error (error : string).

(** What a [catch] clause may receive. *)
Inductive thrown : Type :=
  | ErrorInstance (message : string)
  | NotAnError.

(** [error instanceof Error ? error.message : 'Unknown error'] *)
Definition error_text (e : thrown) : string :=
  match e with
  | ErrorInstance message => message
  | NotAnError => "Unknown error"
  end.

(** The text JavaScriptCore gives the [TypeError] of [queryConfig.k] when
    [queryConfig] is [null]. *)
Definition null_property_error (k : string) : thrown :=
  ErrorInstance ("null is not an object (evaluating 'queryConfig." +:+ k +:+ "')").

(** An HTTP request as [fetch] looks at it: [json_body] is the outcome of
    [req.json()] ([None] when the promise rejects because the body does
    not parse), [upgradable] is the answer of [server.upgrade(req)]. *)
Record request : Type := {
  pathname : string;
  method : string;
  json_body : option value;
  upgradable : bool
}.

Inductive payload : Type :=
  | Json (v : value)
  | Text (s : string).

Record response : Type := {
  status : nat;
  body : payload
}.

(** The handle [query] returns.  The SDK keeps the options it was
    called with; nothing in the server mutates them afterwards. *)
Record Query : Type := { options : gmap string value }.

(** What the server does to the outside world, in the order it does it. *)
Inductive effect : Type :=
  | Send (ws : nat) (m : WSOutputMessage)
  | Close (ws : nat)
  | WriteFile (path data : string)
  | StartQuery (o : gmap string value)
  | Yield (m : value)
  | Interrupt
  | Respond (r : response).

(** ** The state of the process *)

(** The four module-level variables, the file system, and the control
    state of the two coroutines: [demand] counts the [next()] requests
    the generator [generateMessages] has received and not yet answered
    (it is positive exactly while the generator sits in its 10 ms
    sleep), and [iterating] says that the [for await] loop of
    [processMessages] is still running. *)
Record state : Type := {
  activeConnection : option nat;
  messageQueue : list value;
  activeStream : option Query;
  queryConfig : value;
  files : gmap string string;
  demand : nat;
  iterating : bool;
  log : list effect
}.

Definition with_activeConnection (c : option nat) (s : state) : state :=
  {| activeConnection := c; messageQueue := messageQueue s;
     activeStream := activeStream s; queryConfig := queryConfig s;
     files := files s; demand := demand s; iterating := iterating s;
     log := log s |}.

Definition with_messageQueue (q : list value) (s : state) : state :=
  {| activeConnection := activeConnection s; messageQueue := q;
     activeStream := activeStream s; queryConfig := queryConfig s;
     files := files s; demand := demand s; iterating := iterating s;
     log := log s |}.

Definition with_activeStream (q : option Query) (s : state) : state :=
  {| activeConnection := activeConnection s; messageQueue := messageQueue s;
     activeStream := q; queryConfig := queryConfig s;
     files := files s; demand := demand s; iterating := iterating s;
     log := log s |}.

Definition with_queryConfig (c : value) (s : state) : state :=
  {| activeConnection := activeConnection s; messageQueue := messageQueue s;
     activeStream := activeStream s; queryConfig := c;
     files := files s; demand := demand s; iterating := iterating s;
     log := log s |}.

Definition with_files (f : gmap string string) (s : state) : state :=
  {| activeConnection := activeConnection s; messageQueue := messageQueue s;
     activeStream := activeStream s; queryConfig := queryConfig s;
     files := f; demand := demand s; iterating := iterating s;
     log := log s |}.

Definition with_demand (d : nat) (s : state) : state :=
  {| activeConnection := activeConnection s; messageQueue := messageQueue s;
     activeStream := activeStream s; queryConfig := queryConfig s;
     files := files s; demand := d; iterating := iterating s;
     log := log s |}.

Definition with_iterating (b : bool) (s : state) : state :=
  {| activeConnection := activeConnection s; messageQueue := messageQueue s;
     activeStream := activeStream s; queryConfig := queryConfig s;
     files := files s; demand := demand s; iterating := b;
     log := log s |}.

(** Performs the effects [es], in order. *)
Definition emit (es : list effect) (s : state) : state :=
  {| activeConnection := activeConnection s; messageQueue := messageQueue s;
     activeStream := activeStream s; queryConfig := queryConfig s;
     files := files s; demand := demand s; iterating := iterating s;
     log := log s ++ es |}.

(** [ws.send(JSON.stringify(output))] *)
Definition send (ws : nat) (output : WSOutputMessage) : state -> state :=
  emit [Send ws output].

(** [if (activeConnection) activeConnection.send(...)], the guard all
    three forwarding sites share. *)
Definition send_to_active (output : WSOutputMessage) (s : state) : state :=
  match activeConnection s with
  | Some ws => send ws output s
  | None => s
  end.

(** ** The handlers *)

(** What the process takes from its host: the home directory, the
    constant [WORKSPACE_DIR_NAME] of [./const], the environment
    [process.env], and what [Bun.write] does with data that is not a
    string ([None]: it throws; [Some txt]: it writes [txt]).  The last one
    matters only when a caller posts a [clientId] that is not a string,
    which the type [QueryConfig] promises not to happen. *)
Record host : Type := {
  homedir : string;
  WORKSPACE_DIR_NAME : string;
  process_env : gmap string value;
  write_other : value -> option string
}.

(** [path.join] on segments that need no normalisation. *)
Definition join (dir name : string) : string := dir +:+ "/" +:+ name.

(** Modelled from the spec: the typed inbound message that
    [handleMessage] of [./message-handler] parses a frame into (section
    4.3, [onMessage]): a user message, an interrupt instruction, or a
    payload that does not parse. *)
Inductive inbound : Type :=
  | UserMessage (m : value)
  | InterruptRequest
  | Malformed.

Inductive event : Type :=
  | Fetch (req : request)
  | WsOpen (ws : nat)
  | WsMessage (ws : nat) (m : inbound)
  | WsClose (ws : nat)
  | Stderr (data : string)
  | StreamItem (m : value)
  | StreamThrow (e : thrown)
  | StreamEnd
  | Next
  | Timer.

(** The body of [generateMessages] from the test of its inner [while]
    on, with [d] requests to answer: it shifts and yields while the queue
    has a message and a request is waiting.  It returns what it yielded,
    the queue it leaves and the requests it leaves unanswered; it stops
    suspended at a [yield] when those are [0] and in the sleep
    otherwise. *)
Fixpoint generateMessages (queue : list value) (d : nat)
  : list value * list value * nat :=
  match queue, d with
  | message :: rest, S d' =>
      let '(ys, queue', d'') := generateMessages rest d' in
      (message :: ys, queue', d'')
  | _, _ => ([], queue, d)
  end.

(** Resumes the generator with [d] requests waiting. *)
Definition resume (d : nat) (s : state) : state :=
  let '(ys, queue', d') := generateMessages (messageQueue s) d in
  emit (Yield <$> ys) (with_demand d' (with_messageQueue queue' s)).

Section Server.
Context (h : host).

Definition CONFIG_DIR : string := join (homedir h) ".agent-config".
Definition CLIENT_ID_FILE : string := join CONFIG_DIR "client_id".
Definition workspaceDirectory : string := join (homedir h) (WORKSPACE_DIR_NAME h).

(** The value of [env] under the credential override:
    [{ ...process.env, ANTHROPIC_API_KEY: queryConfig.anthropicApiKey }] *)
Definition override_env (key : value) : value :=
  VObj (literal [Spread (VObj (process_env h)); Field "ANTHROPIC_API_KEY" key]).

(** The members of the [options] literal of [processMessages], in
    source order, with [key] the value of [queryConfig.anthropicApiKey]. *)
Definition options_members (config key : value) : list member :=
  [ Field "permissionMode" (VStr "bypassPermissions");
    Field "allowDangerouslySkipPermissions" (VBool true);
    Field "settingSources" (VArr [VStr "project"]);
    Field "cwd" (VStr workspaceDirectory);
    Field "includePartialMessages" (VBool true);
    Field "stderr" (VClosure "stderr");
    Spread config;
    Spread (js_and key (VObj {[ "env" := override_env key ]})) ].

(** The [options] object, or [None] when building it throws. *)
Definition build_options (config : value) : option (gmap string value) :=
  key ← get_prop config "anthropicApiKey";
  Some (literal (options_members config key)).

(** The [catch] clause of [processMessages]. *)
Definition catch_clause (e : thrown) : state -> state :=
  send_to_active (Error (error_text e)).

(** [processMessages] up to its first suspension: it builds the
    options, calls [query] on a fresh generator and enters the
    [for await] loop, or lands in its [catch] clause.  Building the
    options throws only when [queryConfig] is [null], which a [POST
    /config] with that body makes it. *)
Definition processMessages (s : state) : state :=
  match build_options (queryConfig s) with
  | Some o =>
      emit [StartQuery o]
        (with_iterating true (with_activeStream (Some {| options := o |}) s))
  | None => catch_clause (null_property_error "anthropicApiKey") s
  end.

(** The [stderr] callback of the options. *)
Definition stderr (data : string) : state -> state :=
  send_to_active (Info data).

(** One turn of the [for await] loop. *)
Definition forward (message : value) : state -> state :=
  send_to_active (SdkMessage message).

(** [websocket.open] *)
Definition open (ws : nat) (s : state) : state :=
  match activeConnection s with
  | Some _ =>
      emit [Close ws]
        (send ws (Error "Server already has an active connection") s)
  | None =>
      let s1 := with_activeConnection (Some ws) s in
      let s2 := match activeStream s1 with
                | None => processMessages s1
                | Some _ => s1
                end in
      send ws Connected s2
  end.

(** [websocket.close] *)
Definition close (ws : nat) (s : state) : state :=
  if decide (activeConnection s = Some ws)
  then with_activeConnection None s
  else s.

(** Modelled from the spec: [handleMessage] of [./message-handler],
    which is handed the queue and a getter of the stream and nothing
    else (section 4.3, [onMessage]): a user message is appended to the
    tail of the queue, an interrupt goes to the stream's handle if
    there is one, and a malformed payload is dropped. *)
Definition handleMessage (ws : nat) (m : inbound) (s : state) : state :=
  match m with
  | UserMessage message => with_messageQueue (messageQueue s ++ [message]) s
  | InterruptRequest =>
      match activeStream s with
      | Some _ => emit [Interrupt] s
      | None => s
      end
  | Malformed => s
  end.

Definition invalid_json : response :=
  {| status := 400; body := Json (VObj {[ "error" := VStr "Invalid JSON" ]}) |}.

Definition config_saved (config : value) : response :=
  {| status := 200;
     body := Json (VObj (literal [Field "success" (VBool true);
                                  Field "config" config])) |}.

Definition current_config (config : value) : response :=
  {| status := 200; body := Json (VObj {[ "config" := config ]}) |}.

Definition not_found : response :=
  {| status := 404; body := Text "Not Found" |}.

(** What [Bun.write] puts in the file for [data]. *)
Definition written (data : value) : option string :=
  match data with
  | VStr s => Some s
  | _ => write_other h data
  end.

(** The [.then] callback of the [POST /config] branch; [None] when it
    throws, in which case the assignment to [queryConfig] has already
    happened. *)
Definition save_config (config : value) (s : state) : state * option response :=
  let s1 := with_queryConfig config s in
  match get_prop config "clientId" with
  | None => (s1, None)
  | Some clientId =>
      if truthy clientId then
        match written clientId with
        | Some data =>
            (emit [WriteFile CLIENT_ID_FILE data]
               (with_files (<[CLIENT_ID_FILE := data]> (files s1)) s1),
             Some (config_saved config))
        | None => (s1, None)
        end
      else (s1, Some (config_saved config))
  end.

(** [fetch]: the state it leaves and the response it returns ([None]
    when the request was upgraded to a WebSocket). *)
Definition fetch (req : request) (s : state) : state * option response :=
  if decide (pathname req = "/config" ∧ method req = "POST") then
    match json_body req with
    | Some config =>
        match save_config config s with
        | (s', Some r) => (s', Some r)
        | (s', None) => (s', Some invalid_json)
        end
    | None => (s, Some invalid_json)
    end
  else if decide (pathname req = "/config" ∧ method req = "GET") then
    (s, Some (current_config (queryConfig s)))
  else if bool_decide (pathname req = "/ws") && upgradable req then
    (s, None)
  else (s, Some not_found).

(** One event of the run. *)
Definition step (s : state) (e : event) : state :=
  match e with
  | Fetch req =>
      match fetch req s with
      | (s', Some r) => emit [Respond r] s'
      | (s', None) => s'
      end
  | WsOpen ws => open ws s
  | WsMessage ws m => handleMessage ws m s
  | WsClose ws => close ws s
  | Stderr data =>
      match activeStream s with
      | Some _ => stderr data s
      | None => s
      end
  | StreamItem m => if iterating s then forward m s else s
  | StreamThrow e =>
      if iterating s then catch_clause e (with_iterating false s) else s
  | StreamEnd => if iterating s then with_iterating false s else s
  | Next =>
      match activeStream s with
      | Some _ =>
          match demand s with
          | 0 => resume 1 s
          | S d => with_demand (S (S d)) s
          end
      | None => s
      end
  | Timer =>
      match demand s with
      | 0 => s
      | S d => resume (S d) s
      end
  end.

Definition run (s : state) (t : list event) : state := foldl step s t.

(** The process once the module has been loaded: the top-level
    [Bun.write] has created the configuration directory. *)
Definition init : state :=
  {| activeConnection := None;
     messageQueue := [];
     activeStream := None;
     queryConfig := VObj ∅;
     files := {[ join CONFIG_DIR ".keep" := "" ]};
     demand := 0;
     iterating := false;
     log := [] |}.

End Server.

(** ** Observations on a run *)

(** The messages sent to the connection [ws], oldest first. *)
Definition sent_to (ws : nat) (l : list effect) : list WSOutputMessage :=
  omap (fun e => match e with
                 | Send ws' m => if decide (ws' = ws) then Some m else None
                 | _ => None
                 end) l.

(** The messages the generator has handed to the agent runtime. *)
Definition yielded (l : list effect) : list value :=
  omap (fun e => match e with Yield m => Some m | _ => None end) l.

(** The options of the calls to [query]. *)
Definition started (l : list effect) : list (gmap string value) :=
  omap (fun e => match e with StartQuery o => Some o | _ => None end) l.

(** The user messages a run appends to the queue. *)
Definition enqueued (t : list event) : list value :=
  omap (fun e => match e with WsMessage _ (UserMessage m) => Some m | _ => None end) t.

(** ** Requests and a sample host *)

Definition post_config (parsed : option value) : request :=
  {| pathname := "/config"; method := "POST";
     json_body := parsed; upgradable := false |}.

Definition get_config : request :=
  {| pathname := "/config"; method := "GET";
     json_body := None; upgradable := false |}.

(** [setConfiguration(fields)] and [getConfiguration()] of the spec are
    the two requests on [/config]. *)
Definition setConfiguration (h : host) (fields : value) (s : state) : state :=
  step h s (Fetch (post_config (Some fields))).

Definition getConfiguration (h : host) (s : state) : option response :=
  snd (fetch h get_config s).

(** A sample host.  Its [Bun.write] stores a number as its decimal
    text. *)
Definition sample_host : host :=
  {| homedir := "/home/user";
     WORKSPACE_DIR_NAME := "agent-workspace";
     process_env := {[ "ANTHROPIC_API_KEY" := VStr "inherited";
                       "PATH" := VStr "/usr/bin" ]};
     write_other := fun data =>
       match data with
       | VNum n => Some (pretty n)
       | _ => None
       end |}.

(** Sample runs on the sample host. *)

(** A first client has connected, so the session is running. *)
Definition one_client : state :=
  run sample_host (init sample_host) [WsOpen 1].

(** The first client has left again; the session keeps running. *)
Definition client_gone : state :=
  run sample_host (init sample_host) [WsOpen 1; WsClose 1].

(** The runtime asks for a message before any has arrived, then two
    arrive while the generator sleeps. *)
Definition two_messages : list event :=
  [ WsOpen 1; Next;
    WsMessage 1 (UserMessage (VStr "a"));
    WsMessage 1 (UserMessage (VStr "b")) ].

(** A body of [null] is posted before the first client connects. *)
Definition null_then_open : list event :=
  [ Fetch (post_config (Some VNull)); WsOpen 1 ].

(** A stored configuration with a credential and a working directory of
    its own. *)
Definition keyed_config : value :=
  VObj {[ "anthropicApiKey" := VStr "sk-1"; "cwd" := VStr "/tmp" ]}.

(** Events by which the agent session puts something out: a line of
    diagnostics on [stderr], or an item of the output stream. *)
Definition is_output (e : event) : bool :=
  match e with
  | Stderr _ | StreamItem _ => true
  | _ => false
  end.

(** ** The configuration as the spec words it

    The fixed baseline, the credential override, and their merge with the
    stored configuration in the order of precedence the spec gives:
    baseline below stored configuration below credential override. *)

Definition baseline (h : host) : gmap string value :=
  {[ "permissionMode" := VStr "bypassPermissions";
     "allowDangerouslySkipPermissions" := VBool true;
     "settingSources" := VArr [VStr "project"];
     "cwd" := VStr (workspaceDirectory h);
     "includePartialMessages" := VBool true;
     "stderr" := VClosure "stderr" ]}.

Definition credential_override (h : host) (key : value) : gmap string value :=
  if truthy key
  then {[ "env" := VObj (<["ANTHROPIC_API_KEY" := key]> (process_env h)) ]}
  else ∅.

Definition effective_configuration (h : host) (stored key : value)
  : gmap string value :=
  credential_override h key ∪ (own_props stored ∪ baseline h).

(** ** Further observations on a run *)

Definition is_next (e : event) : bool :=
  match e with Next => true | _ => false end.

(** The number of [next()] requests the agent runtime makes in a run. *)
Definition requests (t : list event) : nat := length (List.filter is_next t).

(** Events of the output stream of the session. *)
Definition is_stream_event (e : event) : bool :=
  match e with
  | StreamItem _ | StreamThrow _ | StreamEnd => true
  | _ => false
  end.

(** The body a [POST /config] request carries, when it parses. *)
Definition posted (e : event) : option value :=
  match e with
  | Fetch req =>
      if decide (pathname req = "/config" ∧ method req = "POST")
      then json_body req
      else None
  | _ => None
  end.

(** A stored configuration that overrides two baseline options. *)
Definition overriding_config : value :=
  VObj {[ "permissionMode" := VStr "default"; "stderr" := VStr "ignored" ]}.

(** ** The test client

    [test-db-viz.ts] drives the server and prints what comes back.  Its
    strings are sequences of code units; a character of [string] stands
    for one. *)

(** [text.slice(0, n) + (text.length > n ? '...' : '')], by which the
    client shortens a tool input (to 200) and a tool result (to 500). *)
Definition truncated (n : nat) (text : string) : string :=
  String.substring 0 n text
  +:+ (if n <? String.length text then "..." else "").

(** [file.split('/')] *)
Fixpoint split_slash (file : string) : list string :=
  match file with
  | EmptyString => [EmptyString]
  | String c rest =>
      if Ascii.eqb c "/"%char then EmptyString :: split_slash rest
      else match split_slash rest with
           | segment :: segments => String c segment :: segments
           | [] => [String c EmptyString]
           end
  end.

(** The path a downloaded chart is saved under,
    [`./output/${file.split('/').pop()}`]; [pop] on an empty array gives
    [undefined], which a template prints by name. *)
Definition outputPath (file : string) : string :=
  "./output/" +:+ default "undefined" (last (split_slash file)).

Fixpoint has_slash (s : string) : bool :=
  match s with
  | EmptyString => false
  | String c rest => Ascii.eqb c "/"%char || has_slash rest
  end.

(** ** Paths that [path.join] leaves as they are

    [path.join] skips empty arguments, joins the others with a slash and
    then normalises the result: it collapses repeated slashes, drops [.]
    segments and resolves [..].  [join] only puts the slash in, so it is
    [path.join] where nothing is left to normalise: on a directory that
    is not empty, has no trailing slash, and whose segments (after the
    leading slash of an absolute path) are none of the empty string, [.]
    and [..], followed by a name that is such a segment. *)
Definition plain_segment (segment : string) : bool :=
  negb (String.eqb segment "") && negb (String.eqb segment ".")
  && negb (String.eqb segment "..").

Definition normal_path (path : string) : bool :=
  match split_slash path with
  | [] => false
  | first :: rest =>
      (plain_segment first
       || (String.eqb first "" && negb (bool_decide (rest = []))))
      && forallb plain_segment rest
  end.

(** * Properties *)

Section Properties.
Context (h : host).

Implicit Types (s : state) (e : event) (t : list event) (ws : nat).

(** ** How the handlers touch the state *)

Lemma emit_emit es1 es2 s : emit es2 (emit es1 s) = emit (es1 ++ es2) s.
Proof. unfold emit; simpl. by rewrite <- (assoc_L (++)). Qed.

Lemma run_app s t1 t2 : run h s (t1 ++ t2) = run h (run h s t1) t2.
Proof. apply foldl_app. Qed.

Lemma run_cons s e t : run h s (e :: t) = run h (step h s e) t.
Proof. reflexivity. Qed.

Lemma send_to_active_connection output s :
  activeConnection (send_to_active output s) = activeConnection s.
Proof. unfold send_to_active. by destruct (activeConnection s) eqn:E. Qed.

Lemma send_to_active_none output s :
  activeConnection s = None -> send_to_active output s = s.
Proof. unfold send_to_active. by intros ->. Qed.

Lemma resume_connection d s :
  activeConnection (resume d s) = activeConnection s.
Proof. unfold resume. by destruct (generateMessages _ _) as [[? ?] ?]. Qed.

Lemma resume_stream d s : activeStream (resume d s) = activeStream s.
Proof. unfold resume. by destruct (generateMessages _ _) as [[? ?] ?]. Qed.

Lemma save_config_connection config s :
  activeConnection (save_config h config s).1 = activeConnection s.
Proof. unfold save_config. repeat case_match; simpl; done. Qed.

Lemma fetch_connection req s :
  activeConnection (fetch h req s).1 = activeConnection s.
Proof.
  unfold fetch. repeat case_match; simpl; try done.
  all: match goal with
       | H : save_config _ ?c ?s = _ |- _ =>
           by rewrite <- (save_config_connection c s), H
       end.
Qed.

(** While [A] is the active connection, only its own close event
    changes the slot. *)
Lemma step_keeps_active s e A :
  activeConnection s = Some A -> e ≠ WsClose A ->
  activeConnection (step h s e) = Some A.
Proof.
  intros HA Hne. destruct e as [req|ws|ws m|ws|data|m|err| | |]; simpl.
  - pose proof (fetch_connection req s) as Hf.
    destruct (fetch h req s) as [s' [r|]]; simpl in *; congruence.
  - unfold open. by rewrite HA.
  - unfold handleMessage. by repeat case_match.
  - unfold close. case_decide; [|done]. congruence.
  - case_match; [|done]. unfold stderr. by rewrite send_to_active_connection.
  - case_match; [|done]. unfold forward. by rewrite send_to_active_connection.
  - case_match; [|done]. unfold catch_clause.
    by rewrite send_to_active_connection.
  - by case_match.
  - repeat case_match; try done. by rewrite resume_connection.
  - case_match; [done|]. by rewrite resume_connection.
Qed.

Lemma run_keeps_active t s A :
  activeConnection s = Some A -> WsClose A ∉ t ->
  activeConnection (run h s t) = Some A.
Proof.
  revert s. induction t as [|e t IH]; intros s HA Hnot; [done|].
  rewrite run_cons. apply IH.
  - apply step_keeps_active; [done|]. intros ->. apply Hnot. by left.
  - intros Hin. apply Hnot. by right.
Qed.

(** C1: an open event for [B] while [A] is the active connection sends
    [B] one [error] message and then closes it, and does nothing else;
    [A] stays the active connection, the close event of [B] that
    follows leaves the state as it is, and no run without the close
    event of [A] itself takes the slot from [A].  The slot holds at
    most one connection by its type. *)
Theorem second_open_rejected s A B :
  activeConnection s = Some A -> B ≠ A ->
  let s' := step h s (WsOpen B) in
  s' = emit [Send B (Error "Server already has an active connection");
             Close B] s
  ∧ sent_to B (log s') =
      sent_to B (log s) ++ [Error "Server already has an active connection"]
  ∧ sent_to A (log s') = sent_to A (log s)
  ∧ activeConnection s' = Some A
  ∧ step h s' (WsClose B) = s'
  ∧ (∀ t, WsClose A ∉ t -> activeConnection (run h s' t) = Some A).
Proof.
  intros HA HB s'.
  assert (Hs' : s' = emit [Send B (Error "Server already has an active connection");
                           Close B] s).
  { subst s'. simpl. unfold open, send. rewrite HA. apply emit_emit. }
  assert (Hact : activeConnection s' = Some A) by (by rewrite Hs').
  split_and!; try done.
  - rewrite Hs'. unfold sent_to; simpl. rewrite omap_app. simpl.
    by rewrite decide_True.
  - rewrite Hs'. unfold sent_to; simpl. rewrite omap_app. simpl.
    rewrite decide_False by done. by rewrite (right_id_L [] (++)).
  - simpl. unfold close. rewrite Hact. rewrite decide_False; [done|].
    congruence.
  - intros t Ht. by apply run_keeps_active.
Qed.

(** ** The queue and its generator *)

Lemma generateMessages_split queue d :
  (generateMessages queue d).1.1 ++ (generateMessages queue d).1.2 = queue.
Proof.
  revert d. induction queue as [|m queue IH]; intros [|d]; simpl; try done.
  specialize (IH d). destruct (generateMessages queue d) as [[ys q'] d'].
  simpl in *. by rewrite IH.
Qed.

(** With at least as many requests as messages, all are yielded. *)
Lemma generateMessages_all queue d :
  length queue ≤ d ->
  generateMessages queue d = (queue, [], d - length queue).
Proof.
  revert d. induction queue as [|m queue IH]; intros d Hd; simpl in *.
  - destruct d; simpl; [done|]. done.
  - destruct d as [|d]; [lia|]. rewrite IH by lia. done.
Qed.

Lemma generateMessages_0 queue : generateMessages queue 0 = ([], queue, 0).
Proof. by destruct queue. Qed.

Lemma yielded_app l1 l2 : yielded (l1 ++ l2) = yielded l1 ++ yielded l2.
Proof. apply omap_app. Qed.

Lemma yielded_Yield ys : yielded (Yield <$> ys) = ys.
Proof.
  induction ys as [|y ys IH]; [done|].
  rewrite fmap_cons. change (y :: yielded (Yield <$> ys) = y :: ys).
  by rewrite IH.
Qed.

Lemma resume_fifo d s :
  yielded (log (resume d s)) ++ messageQueue (resume d s)
  = yielded (log s) ++ messageQueue s.
Proof.
  unfold resume. pose proof (generateMessages_split (messageQueue s) d) as Hsplit.
  destruct (generateMessages (messageQueue s) d) as [[ys q'] d'].
  cbn [log emit messageQueue with_demand with_messageQueue fst snd] in *.
  rewrite yielded_app, yielded_Yield, <- Hsplit. by rewrite <- (assoc_L (++)).
Qed.

Ltac handlers :=
  unfold step, fetch, save_config, open, processMessages, catch_clause, stderr,
    forward, send_to_active, send, close, handleMessage.

(** Every event keeps the messages yielded so far, followed by the
    queue, equal to the messages appended so far. *)
Lemma step_fifo s e :
  yielded (log (step h s e)) ++ messageQueue (step h s e)
  = yielded (log s) ++ messageQueue s ++ enqueued [e].
Proof.
  destruct e as [req|ws|ws m|ws|data|m|err| | |]; simpl enqueued.
  9, 10: simpl; repeat case_match; rewrite ?resume_fifo;
         by rewrite (right_id_L [] (++)).
  all: handlers; repeat case_match; simplify_eq; simpl;
    rewrite ?yielded_app; simpl;
    rewrite ?(right_id_L [] (++)); try done.
Qed.

Lemma run_fifo t s :
  yielded (log (run h s t)) ++ messageQueue (run h s t)
  = yielded (log s) ++ messageQueue s ++ enqueued t.
Proof.
  revert s. induction t as [|e t IH]; intros s.
  - simpl. by rewrite (right_id_L [] (++)).
  - rewrite run_cons, IH, (assoc_L (++)), step_fifo.
    change (e :: t) with ([e] ++ t). unfold enqueued. rewrite omap_app.
    by rewrite <- !(assoc_L (++)).
Qed.

(** Requests that arrive while the generator sleeps only queue up. *)
Lemma nexts_asleep n s d :
  is_Some (activeStream s) -> demand s = S d ->
  run h s (replicate n Next) = with_demand (S d + n) s.
Proof.
  revert s d. induction n as [|n IH]; intros s d [q Hq] Hd.
  - simpl. destruct s; simpl in *; subst. unfold with_demand; simpl.
    by rewrite Nat.add_0_r.
  - simpl replicate. rewrite run_cons. simpl step. rewrite Hq, Hd.
    rewrite (IH _ (S d)); [|by eexists|done].
    unfold with_demand; simpl. f_equal. lia.
Qed.

(** [n] requests to a generator that is not asleep take the first [n]
    messages off the queue, or all of them. *)
Lemma nexts_awake n s :
  is_Some (activeStream s) -> demand s = 0 ->
  let s' := run h s (replicate n Next) in
  yielded (log s') = yielded (log s) ++ take n (messageQueue s)
  ∧ messageQueue s' = drop n (messageQueue s)
  ∧ (n ≤ length (messageQueue s) -> demand s' = 0).
Proof.
  revert s. induction n as [|n IH]; intros s Hq Hd.
  - simpl. rewrite take_0, drop_0, (right_id_L [] (++)). done.
  - simpl replicate. rewrite run_cons.
    assert (Hstep : step h s Next = resume 1 s).
    { destruct Hq as [q Hq]. simpl. by rewrite Hq, Hd. }
    rewrite Hstep. unfold resume.
    destruct (messageQueue s) as [|m queue] eqn:Hqueue.
    + simpl generateMessages. cbv iota beta.
      rewrite (nexts_asleep n _ 0); [|done|done].
      simpl. rewrite ?Hqueue, !(right_id_L [] (++)).
      split_and!; [done|done|lia].
    + simpl generateMessages. rewrite generateMessages_0. cbv iota beta.
      destruct (IH (emit (Yield <$> [m])
                      (with_demand 0 (with_messageQueue queue s))))
        as (Hy & Hm & Hdem); [done|done|].
      rewrite Hy, Hm. simpl. rewrite yielded_app, <- (assoc_L (++)).
      split_and!; [reflexivity|done|]. intros. apply Hdem. simpl. lia.
Qed.


(** ** The configuration endpoint *)

Lemma fetch_post config s :
  fetch h (post_config (Some config)) s =
    match save_config h config s with
    | (s', Some r) => (s', Some r)
    | (s', None) => (s', Some invalid_json)
    end.
Proof. reflexivity. Qed.

Lemma fetch_get s :
  fetch h get_config s = (s, Some (current_config (queryConfig s))).
Proof. reflexivity. Qed.

(** The assignment to [queryConfig] comes first and is unconditional. *)
Lemma save_config_store config s :
  queryConfig (save_config h config s).1 = config.
Proof. unfold save_config. repeat case_match; simpl; done. Qed.

Lemma setConfiguration_store config s :
  queryConfig (setConfiguration h config s) = config.
Proof.
  unfold setConfiguration. simpl step. rewrite fetch_post.
  pose proof (save_config_store config s) as Hc.
  destruct (save_config h config s) as [s' [r|]]; simpl in *; done.
Qed.

(** A body of [null] is answered with the 400 of a body that does not
    parse, and is stored all the same: reading [clientId] throws after
    the assignment. *)
Lemma null_body_rejected_yet_stored s :
  fetch h (post_config (Some VNull)) s
  = (with_queryConfig VNull s, Some invalid_json).
Proof. reflexivity. Qed.

(** C3: [setConfiguration] replaces the stored configuration and never
    merges into it: [getConfiguration] after [setConfiguration c]
    answers with status 200 and the body [{config: c}], so it returns
    exactly [c]; after a second [setConfiguration c'] the body is
    [{config: c'}]; and after [{x: 1}] then [{y: 2}] the body is
    [{config: {y: 2}}], in which [x] is undefined. *)
Theorem setConfiguration_replaces s c c' :
  getConfiguration h (setConfiguration h c s) = Some (current_config c)
  ∧ getConfiguration h (setConfiguration h c' (setConfiguration h c s))
    = Some (current_config c')
  ∧ (let x1 := VObj {[ "x" := VNum 1 ]} in
     let y2 := VObj {[ "y" := VNum 2 ]} in
     let s2 := setConfiguration h y2 (setConfiguration h x1 s) in
     getConfiguration h (setConfiguration h x1 s) = Some (current_config x1)
     ∧ getConfiguration h s2 = Some (current_config y2)
     ∧ get_prop (queryConfig s2) "x" = Some VUndefined
     ∧ get_prop (queryConfig s2) "y" = Some (VNum 2))
  ∧ getConfiguration h (setConfiguration h c s)
    = Some {| status := 200; body := Json (VObj {[ "config" := c ]}) |}
  ∧ body <$> getConfiguration h (setConfiguration h c s)
    = Some (Json (VObj {[ "config" := c ]}))
  ∧ getConfiguration h (setConfiguration h c' (setConfiguration h c s))
    = Some {| status := 200; body := Json (VObj {[ "config" := c' ]}) |}
  ∧ body <$> getConfiguration h (setConfiguration h c' (setConfiguration h c s))
    = Some (Json (VObj {[ "config" := c' ]}))
  ∧ body <$> getConfiguration h
               (setConfiguration h (VObj {[ "y" := VNum 2 ]})
                  (setConfiguration h (VObj {[ "x" := VNum 1 ]}) s))
    = Some (Json (VObj {[ "config" := VObj {[ "y" := VNum 2 ]} ]}))
  ∧ queryConfig (setConfiguration h c' (setConfiguration h c s)) = c'.
Proof.
  unfold getConfiguration. rewrite !fetch_get. simpl snd.
  rewrite !setConfiguration_store. split_and!; reflexivity.
Qed.

(** C4, as the code has it: a [POST /config] whose body does not parse
    as JSON is answered with status 400 and changes nothing: neither
    the stored configuration nor the credential file nor any other part
    of the state. *)
Theorem unparseable_body_rejected s req :
  pathname req = "/config" -> method req = "POST" -> json_body req = None ->
  fetch h req s = (s, Some invalid_json)
  ∧ status invalid_json = 400
  ∧ queryConfig (step h s (Fetch req)) = queryConfig s
  ∧ files (step h s (Fetch req)) = files s
  ∧ step h s (Fetch req) = emit [Respond invalid_json] s.
Proof.
  intros Hpath Hmethod Hbody.
  assert (Hf : fetch h req s = (s, Some invalid_json)).
  { unfold fetch. rewrite decide_True by done. by rewrite Hbody. }
  simpl step. rewrite Hf. done.
Qed.

(** C5, as the code has it: when the posted fields carry a client
    identifier that is not the empty string, the credential file holds
    exactly that identifier when the handler is done, and the write
    precedes the success response: the handler's effects are the write
    and then the response with status 200. *)
Theorem clientId_written_before_response s config id :
  get_prop config "clientId" = Some (VStr id) -> id ≠ "" ->
  let s' := setConfiguration h config s in
  files s' !! CLIENT_ID_FILE h = Some id
  ∧ log s' = log s ++ [WriteFile (CLIENT_ID_FILE h) id;
                       Respond (config_saved config)]
  ∧ status (config_saved config) = 200
  ∧ queryConfig s' = config.
Proof.
  intros Hid Hne s'. subst s'. unfold setConfiguration. simpl step.
  rewrite fetch_post. unfold save_config. rewrite Hid.
  assert (Ht : truthy (VStr id) = true).
  { simpl. apply negb_true_iff, String.eqb_neq. done. }
  rewrite Ht. simpl. rewrite lookup_insert_eq, <- (assoc_L (++)). done.
Qed.

(** C10: when the posted body parses and carries no client identifier
    (it is [null], or [clientId] is undefined in it), or carries the
    empty string as one, the credential file and every other file is left
    as it was and the handler's only effect is its response, while the
    stored configuration is replaced by the body.  Unless the body is
    [null], the response is the success response. *)
Theorem no_clientId_no_write s config :
  get_prop config "clientId" = None
  ∨ get_prop config "clientId" = Some VUndefined
  ∨ get_prop config "clientId" = Some (VStr "") ->
  let s' := setConfiguration h config s in
  files s' = files s
  ∧ queryConfig s' = config
  ∧ (∃ r, log s' = log s ++ [Respond r])
  ∧ (is_Some (get_prop config "clientId") ->
     log s' = log s ++ [Respond (config_saved config)]).
Proof.
  intros Hid s'. subst s'. unfold setConfiguration. simpl step.
  rewrite fetch_post. unfold save_config.
  destruct Hid as [-> | [-> | ->]]; simpl; split_and!; try done.
  all: try by eexists.
Qed.

(** ** Output of the agent session *)

(** C6: an item of the agent's output stream or a line of its
    diagnostics that arrives while no connection is active leaves the
    whole state as it was: nothing is sent and nothing is kept.  A run
    therefore continues exactly as if the event had not happened, and
    what any connection is sent later, whenever it attaches, is the
    same with and without the event. *)
Theorem output_dropped_without_connection s e t :
  activeConnection s = None -> is_output e = true ->
  step h s e = s
  ∧ run h s (e :: t) = run h s t
  ∧ (∀ ws, sent_to ws (log (run h s (e :: t))) = sent_to ws (log (run h s t))).
Proof.
  intros Hnone He.
  assert (Hstep : step h s e = s).
  { destruct e; try discriminate He; simpl; case_match; try done.
    - unfold stderr. by apply send_to_active_none.
    - unfold forward. by apply send_to_active_none. }
  rewrite run_cons, Hstep. done.
Qed.

(** ** The options of the session *)

Lemma falsy_no_props v : truthy v = false -> own_props v = ∅.
Proof.
  destruct v; simpl; try done.
  intros Hs. apply negb_false_iff, String.eqb_eq in Hs. by subst.
Qed.

Lemma baseline_literal config key :
  literal (options_members h config key)
  = own_props (js_and key (VObj {[ "env" := override_env h key ]}))
    ∪ (own_props config ∪ baseline h).
Proof. reflexivity. Qed.

Lemma override_env_insert key :
  override_env h key = VObj (<["ANTHROPIC_API_KEY" := key]> (process_env h)).
Proof.
  unfold override_env, literal. simpl. by rewrite (right_id_L ∅ (∪)).
Qed.

Lemma build_options_effective stored key :
  get_prop stored "anthropicApiKey" = Some key ->
  build_options h stored = Some (effective_configuration h stored key).
Proof.
  intros Hkey. unfold build_options. rewrite Hkey. simpl. f_equal.
  rewrite baseline_literal. unfold effective_configuration, credential_override.
  unfold js_and. destruct (truthy key) eqn:Ht.
  - simpl. by rewrite override_env_insert.
  - by rewrite falsy_no_props.
Qed.

(** C7: the options handed to [query] are the fixed baseline (the
    workspace directory as [cwd], permission mode [bypassPermissions],
    partial messages included) overridden key by key by the stored
    configuration, overridden in turn by the credential override: when
    the stored [anthropicApiKey] is truthy, [env] is the process
    environment with [ANTHROPIC_API_KEY] replaced by it. *)
Theorem options_precedence s o :
  build_options h (queryConfig s) = Some o ->
  ∃ key,
    get_prop (queryConfig s) "anthropicApiKey" = Some key
    ∧ started (log (processMessages h s)) = started (log s) ++ [o]
    ∧ activeStream (processMessages h s) = Some {| options := o |}
    ∧ o = effective_configuration h (queryConfig s) key
    ∧ (∀ k, o !! k =
            match credential_override h key !! k with
            | Some v => Some v
            | None =>
                match own_props (queryConfig s) !! k with
                | Some v => Some v
                | None => baseline h !! k
                end
            end)
    ∧ baseline h !! "cwd" = Some (VStr (workspaceDirectory h))
    ∧ baseline h !! "permissionMode" = Some (VStr "bypassPermissions")
    ∧ baseline h !! "includePartialMessages" = Some (VBool true)
    ∧ (truthy key = true ->
       o !! "env" = Some (VObj (<["ANTHROPIC_API_KEY" := key]> (process_env h)))).
Proof.
  intros Ho.
  destruct (get_prop (queryConfig s) "anthropicApiKey") as [key|] eqn:Hkey;
    [|by unfold build_options in Ho; rewrite Hkey in Ho].
  exists key. rewrite (build_options_effective _ key Hkey) in Ho.
  injection Ho as <-.
  assert (Hlook : ∀ k, effective_configuration h (queryConfig s) key !! k =
            match credential_override h key !! k with
            | Some v => Some v
            | None =>
                match own_props (queryConfig s) !! k with
                | Some v => Some v
                | None => baseline h !! k
                end
            end).
  { intros k. unfold effective_configuration. rewrite !lookup_union.
    destruct (credential_override h key !! k), (own_props (queryConfig s) !! k),
      (baseline h !! k); done. }
  split_and!; try done.
  - unfold processMessages. rewrite (build_options_effective _ key Hkey).
    simpl. unfold started. by rewrite omap_app.
  - unfold processMessages. by rewrite (build_options_effective _ key Hkey).
  - intros Ht. rewrite Hlook. unfold credential_override. rewrite Ht.
    by rewrite lookup_singleton_eq.
Qed.

(** ** The life of the session *)

Lemma started_Yield ys : started (Yield <$> ys) = [].
Proof. induction ys as [|y ys IH]; [done|]. by rewrite fmap_cons. Qed.

Lemma resume_started d s : started (log (resume d s)) = started (log s).
Proof.
  unfold resume. destruct (generateMessages _ _) as [[ys ?] ?].
  cbn [log emit]. unfold started at 1. rewrite omap_app.
  fold (started (Yield <$> ys)). rewrite started_Yield.
  by rewrite (right_id_L [] (++)).
Qed.

Lemma step_keeps_stream s e q :
  activeStream s = Some q ->
  activeStream (step h s e) = Some q
  ∧ started (log (step h s e)) = started (log s).
Proof.
  intros Hq. destruct e as [req|ws|ws m|ws|data|m|err| | |].
  9, 10: simpl; repeat case_match; simplify_eq;
         rewrite ?resume_stream, ?resume_started; done.
  all: handlers; rewrite ?Hq; repeat case_match; simplify_eq; simpl;
    rewrite ?Hq; unfold started; rewrite ?omap_app; simpl;
    rewrite ?(right_id_L [] (++)); try done.
  all: simpl in *; congruence.
Qed.

Lemma run_keeps_stream t s q :
  activeStream s = Some q ->
  activeStream (run h s t) = Some q
  ∧ started (log (run h s t)) = started (log s).
Proof.
  revert s. induction t as [|e t IH]; intros s Hq; [done|].
  rewrite run_cons. destruct (step_keeps_stream s e q Hq) as [Hq' Hl].
  destruct (IH _ Hq') as [? ?]. split; congruence.
Qed.

(** C8: once a session has been started, no write to the stored
    configuration, and no other event, changes the options it was
    started with or starts another one: the stored configuration is
    read when [processMessages] builds the options and nowhere else. *)
Theorem running_session_keeps_configuration s q parsed t :
  activeStream s = Some q ->
  activeStream (step h s (Fetch (post_config parsed))) = Some q
  ∧ started (log (step h s (Fetch (post_config parsed)))) = started (log s)
  ∧ activeStream (run h s t) = Some q
  ∧ started (log (run h s t)) = started (log s).
Proof.
  intros Hq.
  destruct (step_keeps_stream s (Fetch (post_config parsed)) q Hq).
  destruct (run_keeps_stream t s q Hq). done.
Qed.

(** Before a session exists, only an open event that finds no active
    connection and can build the options starts one. *)
Lemma step_before_session s e :
  activeStream s = None ->
  (activeStream (step h s e) = None
   ∧ started (log (step h s e)) = started (log s))
  ∨ (∃ o, activeStream (step h s e) = Some {| options := o |}
          ∧ started (log (step h s e)) = started (log s) ++ [o]).
Proof.
  intros Hq. destruct e as [req|ws|ws m|ws|data|m|err| | |].
  9, 10: left; simpl; repeat case_match; simplify_eq;
         rewrite ?resume_stream, ?resume_started; done.
  2: { simpl. unfold open. destruct (activeConnection s) eqn:Hc.
       - left. unfold send. simpl. unfold started. rewrite !omap_app. simpl.
         by rewrite !(right_id_L [] (++)).
       - simpl. rewrite Hq. unfold processMessages. simpl.
         destruct (build_options h (queryConfig s)) as [o|].
         + right. exists o. simpl. unfold started. rewrite !omap_app. simpl.
           by rewrite !(right_id_L [] (++)).
         + left. unfold catch_clause, send_to_active, send. simpl.
           unfold started. rewrite !omap_app. simpl.
           by rewrite !(right_id_L [] (++)). }
  all: left; handlers; rewrite ?Hq; repeat case_match; simplify_eq; simpl;
    rewrite ?Hq; unfold started; rewrite ?omap_app; simpl;
    rewrite ?(right_id_L [] (++)); try done.
Qed.

(** [query] is called at most once in the life of the process. *)
Lemma at_most_one_session t :
  let s := run h (init h) t in
  match activeStream s with
  | Some q => started (log s) = [options q]
  | None => started (log s) = []
  end.
Proof.
  induction t as [|e t IH] using rev_ind; [done|].
  rewrite run_app. simpl in *. set (s := run h (init h) t) in *.
  destruct (activeStream s) as [q|] eqn:Hq.
  - destruct (step_keeps_stream s e q Hq) as [-> ->]. done.
  - destruct (step_before_session s e Hq) as [[-> ->] | (o & -> & ->)];
      [done|]. by rewrite IH.
Qed.

(** The first open event starts the session, provided the stored
    configuration is not [null]. *)
Lemma first_open_starts_session s ws :
  activeConnection s = None -> activeStream s = None ->
  is_Some (get_prop (queryConfig s) "anthropicApiKey") ->
  is_Some (activeStream (step h s (WsOpen ws))).
Proof.
  intros Hc Hq [key Hkey]. simpl. unfold open. rewrite Hc. simpl.
  rewrite Hq. unfold processMessages. simpl.
  rewrite (build_options_effective _ key Hkey). simpl. by eexists.
Qed.

(** A failure of the output stream leaves the handle in place, so the
    next client finds [activeStream] set and starts nothing. *)
Lemma no_restart_after_failure s q err ws :
  activeStream s = Some q ->
  let s' := step h (step h s (StreamThrow err)) (WsOpen ws) in
  activeStream s' = Some q ∧ started (log s') = started (log s).
Proof.
  intros Hq s'. subst s'.
  destruct (step_keeps_stream s (StreamThrow err) q Hq) as [Hq1 Hl1].
  destruct (step_keeps_stream _ (WsOpen ws) q Hq1) as [Hq2 Hl2].
  split; congruence.
Qed.

End Properties.

(** * The properties on sample runs *)

Lemma second_open_rejected_witness :
  sent_to 2 (log (step sample_host one_client (WsOpen 2)))
  = [Error "Server already has an active connection"]
  ∧ activeConnection
      (run sample_host (step sample_host one_client (WsOpen 2)) [WsClose 2])
    = Some 1.
Proof.
  destruct (second_open_rejected sample_host one_client 1 2) as (_ & Hsent & _ & _ & _ & Hrun).
  - vm_compute. reflexivity.
  - lia.
  - split; [exact Hsent|]. apply Hrun. vm_compute. intros Hin.
    apply list_elem_of_In in Hin. simpl in Hin. destruct Hin as [Hin|[]].
    discriminate Hin.
Defined.


Lemma unparseable_body_rejected_witness :
  fetch sample_host (post_config None) one_client
  = (one_client, Some invalid_json).
Proof.
  destruct (unparseable_body_rejected sample_host one_client (post_config None))
    as [Hfetch _]; [reflexivity | reflexivity | reflexivity | exact Hfetch].
Defined.

(** A body that parses to the number 42 is no structured object, yet it
    is answered with status 200 and becomes the stored configuration. *)
Lemma number_body_accepted :
  let r := fetch sample_host (post_config (Some (VNum 42))) (init sample_host) in
  status <$> r.2 = Some 200
  ∧ queryConfig r.1 = VNum 42
  ∧ queryConfig r.1 ≠ queryConfig (init sample_host).
Proof. vm_compute. split_and!; [reflexivity | reflexivity | discriminate]. Qed.

Lemma clientId_written_before_response_witness :
  files (setConfiguration sample_host (VObj {[ "clientId" := VStr "abc" ]})
           (init sample_host))
    !! CLIENT_ID_FILE sample_host
  = Some "abc".
Proof.
  destruct (clientId_written_before_response sample_host (init sample_host)
              (VObj {[ "clientId" := VStr "abc" ]}) "abc") as [Hfile _].
  - vm_compute. reflexivity.
  - discriminate.
  - exact Hfile.
Defined.

(** With the empty string as client identifier the call succeeds, and the
    credential file does not hold that identifier: it is not written,
    and keeps the identifier of an earlier call. *)
Lemma empty_clientId_not_written :
  let config := VObj {[ "clientId" := VStr "" ]} in
  let s := setConfiguration sample_host (VObj {[ "clientId" := VStr "abc" ]})
             (init sample_host) in
  let s' := setConfiguration sample_host config s in
  get_prop config "clientId" = Some (VStr "")
  ∧ status <$> (fetch sample_host (post_config (Some config)) s).2 = Some 200
  ∧ files s' !! CLIENT_ID_FILE sample_host = Some "abc"
  ∧ files s' !! CLIENT_ID_FILE sample_host ≠ Some "".
Proof. vm_compute. split_and!; [reflexivity .. | discriminate]. Qed.

Lemma output_dropped_without_connection_witness :
  sent_to 2 (log (run sample_host client_gone
                    [StreamItem (VStr "chunk"); WsOpen 2]))
  = [Connected].
Proof.
  destruct (output_dropped_without_connection sample_host client_gone
              (StreamItem (VStr "chunk")) [WsOpen 2]) as (_ & _ & Hsent).
  - vm_compute. reflexivity.
  - reflexivity.
  - rewrite Hsent. vm_compute. reflexivity.
Defined.

Lemma options_precedence_witness :
  let o := effective_configuration sample_host keyed_config (VStr "sk-1") in
  o !! "cwd" = Some (VStr "/tmp")
  ∧ o !! "permissionMode" = Some (VStr "bypassPermissions")
  ∧ o !! "env"
    = Some (VObj {[ "ANTHROPIC_API_KEY" := VStr "sk-1";
                    "PATH" := VStr "/usr/bin" ]}).
Proof.
  destruct (options_precedence sample_host
              (with_queryConfig keyed_config (init sample_host))
              (effective_configuration sample_host keyed_config (VStr "sk-1")))
    as (key & _ & _ & _ & _ & _ & _ & _ & _ & _).
  - vm_compute. reflexivity.
  - vm_compute. split_and!; reflexivity.
Defined.

Lemma running_session_keeps_configuration_witness :
  activeStream
    (run sample_host one_client [Fetch (post_config (Some keyed_config))])
  = activeStream one_client.
Proof.
  destruct (running_session_keeps_configuration sample_host one_client
              {| options := effective_configuration sample_host (VObj ∅) VUndefined |}
              None [Fetch (post_config (Some keyed_config))])
    as (_ & _ & Hrun & _).
  - vm_compute. reflexivity.
  - rewrite Hrun. vm_compute. reflexivity.
Defined.

Lemma no_clientId_no_write_witness :
  files (setConfiguration sample_host (VObj {[ "clientId" := VStr "" ]}) one_client)
  = files one_client.
Proof.
  destruct (no_clientId_no_write sample_host one_client
              (VObj {[ "clientId" := VStr "" ]})) as [Hfiles _].
  - right. right. vm_compute. reflexivity.
  - exact Hfiles.
Defined.

(** C9, where the code departs from it: after a body of [null] has been
    posted (and answered with 400), the first open event calls
    [processMessages], which throws while it builds the options: the
    client is sent an [error] and then [connected], [query] is not
    called and [activeStream] stays unset.  So the next open event calls
    [processMessages] again: with the configuration still [null] that
    client is sent the same [error], and once an object has been posted
    the session starts on this second connection. *)
Theorem null_config_defers_session :
  let s1 := run sample_host (init sample_host) null_then_open in
  let s2 := run sample_host s1 [WsClose 1; WsOpen 2] in
  let s3 := run sample_host s1
              [WsClose 1; Fetch (post_config (Some (VObj ∅))); WsOpen 2] in
  started (log s1) = []
  ∧ activeStream s1 = None
  ∧ sent_to 1 (log s1)
    = [Error "null is not an object (evaluating 'queryConfig.anthropicApiKey')";
       Connected]
  ∧ started (log s2) = []
  ∧ sent_to 2 (log s2)
    = [Error "null is not an object (evaluating 'queryConfig.anthropicApiKey')";
       Connected]
  ∧ length (started (log s3)) = 1
  ∧ sent_to 2 (log s3) = [Connected].
Proof. vm_compute. split_and!; reflexivity. Qed.

(** * Splitting paths *)

Lemma split_slash_nonempty (file : string) : split_slash file ≠ [].
Proof.
  induction file as [|c file IH]; simpl; [done|].
  destruct (Ascii.eqb c "/"); [done|]. by destruct (split_slash file).
Qed.

Lemma split_slash_plain (name : string) :
  has_slash name = false -> split_slash name = [name].
Proof.
  induction name as [|c name IH]; simpl; [done|].
  destruct (Ascii.eqb c "/"); simpl; [done|]. intros Hn. by rewrite IH.
Qed.

Lemma split_slash_snoc (dir name : string) :
  has_slash name = false ->
  split_slash (dir +:+ "/" +:+ name) = split_slash dir ++ [name].
Proof.
  intros Hn. induction dir as [|c dir IH]; simpl.
  - by rewrite split_slash_plain.
  - rewrite IH. destruct (Ascii.eqb c "/"); [done|].
    pose proof (split_slash_nonempty dir) as Hne.
    by destruct (split_slash dir).
Qed.

(** Putting a plain name under a path that needs no normalisation
    gives a path that needs none. *)
Lemma normal_path_join (dir name : string) :
  normal_path dir = true -> plain_segment name = true ->
  has_slash name = false ->
  normal_path (join dir name) = true.
Proof.
  intros Hdir Hname Hslash. unfold normal_path, join in *.
  rewrite split_slash_snoc by done.
  destruct (split_slash dir) as [|first rest]; [done|].
  simpl app. apply andb_true_iff in Hdir as [Hfirst Hrest].
  apply andb_true_iff. split.
  - apply orb_true_iff in Hfirst as [Hplain|Hroot].
    + by rewrite Hplain.
    + apply andb_true_iff in Hroot as [Hempty _]. rewrite Hempty.
      rewrite bool_decide_eq_false_2; [by rewrite orb_true_r|].
      by destruct rest.
  - rewrite forallb_app, Hrest. simpl. by rewrite Hname.
Qed.

(** * Further properties of the handlers *)

Section Further.
Context (h : host).

Implicit Types (s : state) (e : event) (t : list event) (ws : nat).

Ltac unfold_handlers :=
  unfold step, fetch, save_config, open, processMessages, catch_clause, stderr,
    forward, send_to_active, send, close, handleMessage.

(** ** [fetch] *)

Lemma save_config_frame config s :
  let s' := (save_config h config s).1 in
  activeConnection s' = activeConnection s
  ∧ messageQueue s' = messageQueue s
  ∧ activeStream s' = activeStream s
  ∧ demand s' = demand s
  ∧ iterating s' = iterating s.
Proof. unfold save_config. repeat case_match; simpl; done. Qed.

Lemma save_config_response config s s' r :
  save_config h config s = (s', Some r) -> r = config_saved config.
Proof. unfold save_config. repeat case_match; intros [=]; done. Qed.

(** X1: no HTTP request touches the active connection, the message
    queue, the stream handle or the control state of the generator and of
    the forwarding loop; and a request that is not [POST /config], or
    whose body does not parse, leaves the whole state as it was. *)
Theorem fetch_frame req s :
  let s' := (fetch h req s).1 in
  (activeConnection s' = activeConnection s
   ∧ messageQueue s' = messageQueue s
   ∧ activeStream s' = activeStream s
   ∧ demand s' = demand s
   ∧ iterating s' = iterating s)
  ∧ (¬ (pathname req = "/config" ∧ method req = "POST") -> s' = s)
  ∧ (json_body req = None -> s' = s).
Proof.
  simpl. split_and!.
  1-5: unfold fetch; repeat case_match; simpl; try done;
       match goal with
       | H : save_config _ ?c ?s = _ |- _ =>
           pose proof (save_config_frame c s) as Hf; rewrite H in Hf;
           simpl in Hf; tauto
       end.
  - intros Hnot. unfold fetch. rewrite decide_False by done.
    by repeat case_match.
  - intros Hbody. unfold fetch. rewrite Hbody. by repeat case_match.
Qed.

(** X2: the answer is 404 [Not Found] exactly for the requests that are
    neither a [POST] nor a [GET] on [/config] nor an upgradable request on
    [/ws]; in particular a [/ws] request whose upgrade fails and any other
    method on [/config] get it, and [POST /config] never does. *)
Theorem not_found_iff req s :
  (fetch h req s).2 = Some not_found
  ↔ ¬ (pathname req = "/config" ∧ (method req = "POST" ∨ method req = "GET"))
    ∧ ¬ (pathname req = "/ws" ∧ upgradable req = true).
Proof.
  unfold fetch.
  destruct (decide (pathname req = "/config" ∧ method req = "POST")) as [Hpost|Hpost].
  { split.
    - repeat case_match; simpl; intros [=]; subst.
      match goal with
      | H : save_config _ _ _ = _ |- _ => apply save_config_response in H
      end.
      discriminate.
    - intros [Hno _]. destruct Hno. tauto. }
  destruct (decide (pathname req = "/config" ∧ method req = "GET")) as [Hget|Hget].
  { split; [intros [=]|]. intros [Hno _]. destruct Hno. tauto. }
  destruct (bool_decide (pathname req = "/ws")) eqn:Hws.
  - apply bool_decide_eq_true in Hws. destruct (upgradable req); simpl.
    + split; [intros [=]|]. intros [_ Hno]. destruct Hno. done.
    + split; [|done]. intros _. split; [tauto|]. by intros [_ [=]].
  - apply bool_decide_eq_false in Hws. simpl. split; [|done].
    intros _. split; tauto.
Qed.

(** X3: a [POST /config] is answered with 400 exactly when the body does
    not parse, or is [null], or [Bun.write] throws on the truthy
    [clientId] it carries, which it never does on a string; in every
    other case the answer is the success response that echoes the body.
    So a [clientId] that is a number, which the runtime stores as its
    decimal text, is accepted. *)
Theorem post_config_rejected_iff parsed s :
  let r := (fetch h (post_config parsed) s).2 in
  (r = Some invalid_json
   ↔ parsed = None
     ∨ ∃ config, parsed = Some config
         ∧ (get_prop config "clientId" = None
            ∨ ∃ id, get_prop config "clientId" = Some id
                ∧ truthy id = true ∧ written h id = None))
  ∧ (r ≠ Some invalid_json ->
     ∃ config, parsed = Some config ∧ r = Some (config_saved config)).
Proof.
  simpl. destruct parsed as [config|].
  2: { split; [|done]. split; [by left|done]. }
  rewrite fetch_post. unfold save_config.
  destruct (get_prop config "clientId") as [id|] eqn:Hid.
  2: { simpl. split; [|done]. split; [|done]. intros _. right. exists config.
       split; [done|]. by left. }
  destruct (truthy id) eqn:Ht.
  2: { simpl. split.
       - split; [intros [=]|]. intros [[=]|(c & [= <-] & [Hn|(id' & Hid' & Ht' & _)])].
         + congruence.
         + congruence.
       - intros _. by exists config. }
  destruct (written h id) as [data|] eqn:Hw; simpl.
  - split.
    + split; [intros [=]|]. intros [[=]|(c & [= <-] & [Hn|(id' & Hid' & _ & Hw')])].
      * congruence.
      * congruence.
    + intros _. by exists config.
  - split; [|done]. split; [|done]. intros _. right. exists config.
    split; [done|]. right. by exists id.
Qed.

(** ** The files *)

Lemma append_inj_l (a x y : string) : a +:+ x = a +:+ y -> x = y.
Proof. induction a as [|c a IH]; simpl; [done|]. intros [=]. by apply IH. Qed.

Lemma keep_is_not_client_id :
  join (CONFIG_DIR h) ".keep" ≠ CLIENT_ID_FILE h.
Proof.
  unfold CLIENT_ID_FILE, join. intros Heq.
  apply append_inj_l in Heq. discriminate Heq.
Qed.

Lemma step_files s e p :
  p ≠ CLIENT_ID_FILE h -> files (step h s e) !! p = files s !! p.
Proof.
  intros Hp. destruct e as [req|ws|ws m|ws|data|m|err| | |].
  9, 10: simpl; repeat case_match; try done; unfold resume;
         by destruct (generateMessages _ _) as [[? ?] ?].
  all: unfold_handlers; repeat case_match; simplify_eq; simpl;
    rewrite ?lookup_insert_ne by done; done.
Qed.

Lemma step_client_id_kept s e :
  is_Some (files s !! CLIENT_ID_FILE h) ->
  is_Some (files (step h s e) !! CLIENT_ID_FILE h).
Proof.
  intros Hsome. destruct e as [req|ws|ws m|ws|data|m|err| | |].
  9, 10: simpl; repeat case_match; try done; unfold resume;
         by destruct (generateMessages _ _) as [[? ?] ?].
  all: unfold_handlers; repeat case_match; simplify_eq; simpl;
    rewrite ?lookup_insert_eq; try done; by eexists.
Qed.


(** ** Who is sent what *)

Lemma sent_to_app ws l1 l2 : sent_to ws (l1 ++ l2) = sent_to ws l1 ++ sent_to ws l2.
Proof. apply omap_app. Qed.

Lemma sent_to_Yield ws ys : sent_to ws (Yield <$> ys) = [].
Proof. induction ys as [|y ys IH]; [done|]. by rewrite fmap_cons. Qed.

Lemma resume_sent_to ws d s :
  sent_to ws (log (resume d s)) = sent_to ws (log s).
Proof.
  unfold resume. destruct (generateMessages _ _) as [[ys ?] ?].
  cbn [log emit]. rewrite sent_to_app, sent_to_Yield.
  by rewrite (right_id_L [] (++)).
Qed.

Lemma step_not_active s e ws :
  activeConnection s ≠ Some ws -> e ≠ WsOpen ws ->
  sent_to ws (log (step h s e)) = sent_to ws (log s)
  ∧ activeConnection (step h s e) ≠ Some ws.
Proof.
  intros Hact Hopen. destruct e as [req|ws'|ws' m|ws'|data|m|err| | |].
  9, 10: simpl; repeat case_match; simplify_eq;
         by rewrite ?resume_sent_to, ?resume_connection.
  2: { assert (ws' ≠ ws) by congruence.
       simpl. unfold open, processMessages, catch_clause, send_to_active, send.
       repeat case_match; simpl in *; simplify_eq; rewrite ?sent_to_app; simpl;
         rewrite ?decide_False by done; rewrite ?(right_id_L [] (++));
         split; congruence. }
  all: unfold_handlers; repeat case_match; simplify_eq; simpl;
    rewrite ?sent_to_app; simpl;
    repeat (case_decide; simplify_eq);
    rewrite ?(right_id_L [] (++)); split; congruence.
Qed.

(** X5: a connection that is not the active one is sent nothing: in a
    run in which [ws] is not active at the start and from which no open
    event and no frame of [ws] arrives, not a single message goes to
    [ws], whatever the session puts out, whatever is posted and whoever
    else connects or sends; and [ws] does not become the active
    connection. *)
Theorem inactive_connection_sent_nothing s t ws :
  activeConnection s ≠ Some ws -> WsOpen ws ∉ t ->
  (∀ m, WsMessage ws m ∉ t) ->
  sent_to ws (log (run h s t)) = sent_to ws (log s)
  ∧ activeConnection (run h s t) ≠ Some ws.
Proof.
  intros Hact Hnot _. revert s Hact Hnot.
  induction t as [|e t IH]; intros s Hact Hnot; [done|].
  rewrite run_cons.
  destruct (step_not_active s e ws Hact) as [Hsent Hact'].
  { intros ->. apply Hnot. by left. }
  destruct (IH (step h s e) Hact') as [Hsent' Hact''].
  { intros Hin. apply Hnot. by right. }
  split; [congruence|done].
Qed.

(** X6: while a connection [A] is active and the forwarding loop runs,
    the items of the agent's output stream are sent to [A] one message
    each, in the order they arrive, with nothing dropped, merged or
    repeated, and nothing else happens. *)
Theorem stream_items_forwarded_in_order s A ms :
  activeConnection s = Some A -> iterating s = true ->
  let s' := run h s (StreamItem <$> ms) in
  s' = emit ((λ m, Send A (SdkMessage m)) <$> ms) s
  ∧ sent_to A (log s') = sent_to A (log s) ++ (SdkMessage <$> ms).
Proof.
  intros HA Hit. simpl.
  assert (Hrun : run h s (StreamItem <$> ms)
                 = emit ((λ m, Send A (SdkMessage m)) <$> ms) s).
  { revert s HA Hit. induction ms as [|m ms IH]; intros s HA Hit.
    - simpl. destruct s; unfold emit; simpl. by rewrite (right_id_L [] (++)).
    - rewrite !fmap_cons, run_cons. simpl step. rewrite Hit.
      unfold forward, send_to_active, send. rewrite HA.
      rewrite IH by done. by rewrite emit_emit. }
  split; [done|]. rewrite Hrun. cbn [log emit]. rewrite sent_to_app. f_equal.
  clear. induction ms as [|m ms IH]; [done|].
  rewrite !fmap_cons.
  change (sent_to A ([Send A (SdkMessage m)]
                       ++ ((λ m, Send A (SdkMessage m)) <$> ms))
          = [SdkMessage m] ++ (SdkMessage <$> ms)).
  rewrite sent_to_app, IH. f_equal.
  unfold sent_to. simpl. by rewrite decide_True.
Qed.

(** X7: when the output stream throws while the loop runs, the active
    connection, if there is one, is sent one [error] message carrying
    the message of the error (or [Unknown error] when what was thrown is
    no [Error]), and nobody is sent anything otherwise; the loop is over,
    so later events of that stream have no effect, while the stream
    handle and the active connection stay as they are. *)
Theorem stream_failure_reported_once s err t :
  iterating s = true -> Forall (λ e, is_stream_event e = true) t ->
  let s' := step h s (StreamThrow err) in
  log s' = log s ++ match activeConnection s with
                    | Some A => [Send A (Error (error_text err))]
                    | None => []
                    end
  ∧ iterating s' = false
  ∧ activeStream s' = activeStream s
  ∧ activeConnection s' = activeConnection s
  ∧ run h s' t = s'.
Proof.
  intros Hit Ht. simpl. rewrite Hit.
  unfold catch_clause, send_to_active, send.
  assert (Hdone : ∀ s0, iterating s0 = false -> run h s0 t = s0).
  { clear -Ht. induction Ht as [|e t He _ IH]; intros s0 H0; [done|].
    rewrite run_cons.
    assert (step h s0 e = s0) as ->; [|by apply IH].
    destruct e; try discriminate He; simpl; by rewrite H0. }
  change (activeConnection (with_iterating false s)) with (activeConnection s).
  destruct (activeConnection s) as [A|] eqn:HA; simpl;
    rewrite ?(right_id_L [] (++)); split_and!; try done; by apply Hdone.
Qed.

(** X8: the session outlives its client.  When the active connection
    [A] closes and a connection [B] opens, [B] becomes the active
    connection and is sent [connected] and nothing else; [query] is not
    called again, and the stream handle, the queued messages and the
    state of the generator and of the forwarding loop are those from
    before. *)
Theorem reconnect_keeps_session s A B q :
  activeConnection s = Some A -> activeStream s = Some q ->
  run h s [WsClose A; WsOpen B]
  = emit [Send B Connected] (with_activeConnection (Some B) s).
Proof.
  intros HA Hq. simpl. unfold close. rewrite HA, decide_True by done.
  unfold open. simpl. by rewrite Hq.
Qed.

(** X9: in every run of the process [query] is called at most once, and
    the stream handle is set exactly when it has been called: the calls
    made so far are the one that created the current handle, or none. *)
Theorem query_called_at_most_once t :
  let s := run h (init h) t in
  length (started (log s)) ≤ 1
  ∧ started (log s) = from_option (λ q, [options q]) [] (activeStream s).
Proof.
  simpl. pose proof (at_most_one_session h t) as Hone. simpl in Hone.
  destruct (activeStream (run h (init h) t)); rewrite Hone; simpl; split; (lia || done).
Qed.

(** ** The generator *)

Lemma generateMessages_closed queue d :
  generateMessages queue d = (take d queue, drop d queue, d - length queue).
Proof.
  revert d. induction queue as [|m queue IH]; intros [|d]; simpl; try done.
  by rewrite IH.
Qed.

Lemma generateMessages_sum queue d :
  length (generateMessages queue d).1.1 + (generateMessages queue d).2 = d.
Proof. rewrite generateMessages_closed. simpl. rewrite length_take. lia. Qed.

(** X10: one run of the generator's body with [d] requests waiting
    hands over the first [d] messages of the queue, or all of them if
    there are fewer, leaves the rest queued, and leaves unanswered the
    requests that found no message.  So the generator never yields a
    message nobody asked for: what it yields and the requests it leaves
    unanswered add up to [d]. *)
Theorem generateMessages_take_drop queue d :
  generateMessages queue d = (take d queue, drop d queue, d - length queue)
  ∧ length (generateMessages queue d).1.1 + (generateMessages queue d).2 = d.
Proof.
  split; [apply generateMessages_closed|apply generateMessages_sum].
Qed.

Lemma resume_count d s :
  length (yielded (log (resume d s))) + demand (resume d s)
  = length (yielded (log s)) + d.
Proof.
  unfold resume.
  pose proof (generateMessages_sum (messageQueue s) d) as Hsum.
  destruct (generateMessages (messageQueue s) d) as [[ys q'] d'].
  cbn [log emit demand with_demand with_messageQueue fst snd] in *.
  rewrite yielded_app, length_app, yielded_Yield. lia.
Qed.

Lemma step_count s e :
  length (yielded (log (step h s e))) + demand (step h s e)
  ≤ length (yielded (log s)) + demand s + (if is_next e then 1 else 0).
Proof.
  destruct e as [req|ws|ws m|ws|data|m|err| | |].
  9, 10: simpl; repeat case_match; rewrite ?resume_count; simpl; lia.
  all: unfold_handlers; repeat case_match; simplify_eq; simpl;
    rewrite ?yielded_app, ?length_app; simpl; lia.
Qed.

(** X11: the generator is lazy.  In every run the number of messages it
    has handed to the agent runtime, plus the number of requests it still
    owes an answer, is at most the number of [next()] requests made: no
    message leaves the queue before the runtime asks for one. *)
Theorem yields_bounded_by_requests t :
  let s := run h (init h) t in
  length (yielded (log s)) + demand s ≤ requests t.
Proof.
  simpl.
  assert (Hgen : ∀ t s, length (yielded (log (run h s t))) + demand (run h s t)
                        ≤ length (yielded (log s)) + demand s + requests t).
  { clear. intros t. induction t as [|e t IH]; intros s; [simpl; lia|].
    rewrite run_cons. specialize (IH (step h s e)).
    pose proof (step_count s e) as He. unfold requests in *. simpl.
    destruct (is_next e); simpl in *; lia. }
  specialize (Hgen t (init h)). simpl in Hgen. lia.
Qed.

(** ** The options *)

(** X12: building the options fails only when the stored configuration
    is [null] (or [undefined], which no JSON body yields): for every
    other stored value, an object or not, the options are built.  When it
    is [null], a client that finds the slot free and no session is made
    the active connection and sent an [error] and then [connected],
    [query] is not called, and the stream handle stays unset. *)
Theorem options_built_unless_null config s ws :
  (build_options h config = None ↔ config = VNull ∨ config = VUndefined)
  ∧ (activeConnection s = None -> activeStream s = None ->
     queryConfig s = VNull ->
     step h s (WsOpen ws)
     = emit [Send ws (Error (error_text (null_property_error "anthropicApiKey")));
             Send ws Connected]
         (with_activeConnection (Some ws) s)).
Proof.
  split.
  - unfold build_options. destruct config; simpl; split; intros Hn;
      try discriminate Hn; try done; try (by left); try (by right);
      destruct Hn as [Hn|Hn]; discriminate Hn.
  - intros Hc Hq Hnull. simpl. unfold open. rewrite Hc. simpl. rewrite Hq.
    unfold processMessages. simpl. rewrite Hnull. simpl.
    unfold catch_clause, send_to_active, send. simpl. by rewrite emit_emit.
Qed.

(** X13: the baseline is not protected.  Every own property of the
    stored configuration other than [env] reaches the options with the
    stored value, whether or not the baseline defines that key: a stored
    [permissionMode], [cwd] or [stderr] replaces the server's, and
    [anthropicApiKey] and [clientId] are passed on as they are. *)
Theorem stored_fields_reach_options config o k v :
  build_options h config = Some o ->
  own_props config !! k = Some v -> k ≠ "env" ->
  o !! k = Some v.
Proof.
  intros Ho Hk Henv.
  destruct (get_prop config "anthropicApiKey") as [key|] eqn:Hkey;
    [|by unfold build_options in Ho; rewrite Hkey in Ho].
  rewrite (build_options_effective h _ key Hkey) in Ho. injection Ho as <-.
  unfold effective_configuration. rewrite !lookup_union, Hk.
  assert (credential_override h key !! k = None) as ->.
  { unfold credential_override. destruct (truthy key); [|done].
    by rewrite lookup_singleton_ne. }
  by destruct (baseline h !! k).
Qed.

(** ** The stored configuration over a run *)

Lemma step_store s e :
  queryConfig (step h s e) = default (queryConfig s) (posted e).
Proof.
  destruct e as [req|ws|ws m|ws|data|m|err| | |].
  9, 10: simpl; repeat case_match; try done; unfold resume;
         by destruct (generateMessages _ _) as [[? ?] ?].
  2-8: unfold_handlers; repeat case_match; simplify_eq; simpl; done.
  simpl. unfold fetch.
  destruct (decide (pathname req = "/config" ∧ method req = "POST")).
  - destruct (json_body req) as [config|]; simpl; [|done].
    pose proof (save_config_store h config s) as Hstore.
    by destruct (save_config h config s) as [s' [r|]].
  - repeat case_match; simplify_eq; done.
Qed.

(** X17: the store is last-write-wins, and only [POST /config] writes
    it: after any run the stored configuration is the body of the last
    [POST /config] whose body parsed, whatever the answer to that request
    was, or the configuration from before the run if there was none. *)
Theorem store_is_last_posted s t :
  queryConfig (run h s t) = default (queryConfig s) (last (omap posted t)).
Proof.
  revert s. induction t as [|e t IH]; intros s; [done|].
  rewrite run_cons, IH, step_store.
  change (omap posted (e :: t))
    with (match posted e with
          | Some config => config :: omap posted t
          | None => omap posted t
          end).
  destruct (posted e) as [config|]; [|done].
  rewrite last_cons. by destruct (last (omap posted t)).
Qed.

End Further.

(** * Properties of the test client *)

Lemma length_append (a b : string) :
  String.length (a +:+ b) = String.length a + String.length b.
Proof. induction a as [|c a IH]; simpl; [done|]. by rewrite IH. Qed.

Lemma substring_all (n : nat) (text : string) :
  String.length text ≤ n -> String.substring 0 n text = text.
Proof.
  revert n. induction text as [|c text IH]; intros [|n] Hn; simpl in *;
    try done; try lia.
  rewrite IH; [done|lia].
Qed.

Lemma length_substring (n : nat) (text : string) :
  n ≤ String.length text -> String.length (String.substring 0 n text) = n.
Proof.
  revert n. induction text as [|c text IH]; intros [|n] Hn; simpl in *;
    try done; try lia.
  rewrite IH; [done|lia].
Qed.

Lemma append_empty_r (a : string) : a +:+ "" = a.
Proof.
  induction a as [|c a IH]; [done|].
  change (String c (a +:+ "") = String c a). by rewrite IH.
Qed.

(** X14: a text of at most [n] code units is printed as it is; a longer
    one is cut to its first [n] code units followed by three dots, which
    makes [n + 3].  So what is printed never exceeds [n + 3] code units,
    and a text of [n + 1] or [n + 2] code units comes out longer than it
    went in. *)
Theorem truncated_spec (n : nat) (text : string) :
  (String.length text ≤ n -> truncated n text = text)
  ∧ (n < String.length text ->
     truncated n text = String.substring 0 n text +:+ "..."
     ∧ String.length (truncated n text) = n + 3)
  ∧ String.length (truncated n text) ≤ n + 3.
Proof.
  unfold truncated. destruct (n <? String.length text) eqn:Hlt; cbv iota.
  - apply Nat.ltb_lt in Hlt.
    assert (String.length (String.substring 0 n text +:+ "...") = n + 3).
    { rewrite length_append, length_substring by lia. done. }
    split_and!; [lia|done|lia].
  - apply Nat.ltb_ge in Hlt. rewrite append_empty_r, substring_all by done.
    split_and!; [done|lia|lia].
Qed.

(** X15: splitting a path at its slashes loses nothing and leaves no
    slash behind: joining the segments with slashes gives the path back,
    no segment contains a slash, and there is always at least one
    segment (the empty path has one empty segment). *)
Theorem split_slash_join (file : string) :
  String.concat "/" (split_slash file) = file
  ∧ Forall (λ segment, has_slash segment = false) (split_slash file)
  ∧ split_slash file ≠ [].
Proof.
  split_and!; [| |apply split_slash_nonempty].
  - induction file as [|c file IH]; [done|]. simpl.
    destruct (Ascii.eqb c "/") eqn:Hc.
    + apply Ascii.eqb_eq in Hc. subst c.
      pose proof (split_slash_nonempty file) as Hne.
      destruct (split_slash file) as [|segment segments]; [done|].
      simpl in *. by rewrite IH.
    + pose proof (split_slash_nonempty file) as Hne.
      destruct (split_slash file) as [|segment segments]; [done|].
      destruct segments; simpl in *; by rewrite <- IH.
  - induction file as [|c file IH]; simpl; [by repeat constructor|].
    destruct (Ascii.eqb c "/") eqn:Hc; [by constructor|].
    destruct (split_slash file) as [|segment segments]; simpl.
    + repeat constructor. simpl. by rewrite Hc.
    + inversion IH as [|? ? Hseg Hrest]; subst. constructor; [|done].
      simpl. by rewrite Hc.
Qed.

(** X16: a chart is saved under its last path segment alone.  A name
    without a slash is saved as [./output/name], and so is [name] under
    any directory [dir]: the directory plays no part, so two charts of
    the same name in different directories are saved to the same path. *)
Theorem outputPath_basename (dir dir' name : string) :
  has_slash name = false ->
  outputPath name = "./output/" +:+ name
  ∧ outputPath (dir +:+ "/" +:+ name) = "./output/" +:+ name
  ∧ outputPath (dir +:+ "/" +:+ name) = outputPath (dir' +:+ "/" +:+ name).
Proof.
  intros Hn. unfold outputPath.
  rewrite split_slash_plain, !split_slash_snoc by done.
  by rewrite !last_snoc.
Qed.

(** * The further properties on sample runs *)

Lemma fetch_frame_witness :
  (fetch sample_host
     {| pathname := "/config"; method := "PUT";
        json_body := Some keyed_config; upgradable := false |}
     one_client).1
  = one_client.
Proof.
  destruct (fetch_frame sample_host
              {| pathname := "/config"; method := "PUT";
                 json_body := Some keyed_config; upgradable := false |}
              one_client) as (_ & Hsame & _).
  apply Hsame. simpl. intros [_ Hmethod]. discriminate Hmethod.
Defined.

Lemma not_found_iff_witness :
  (fetch sample_host
     {| pathname := "/ws"; method := "GET";
        json_body := None; upgradable := false |}
     one_client).2
  = Some (not_found).
Proof.
  apply (proj2 (not_found_iff sample_host
                  {| pathname := "/ws"; method := "GET";
                     json_body := None; upgradable := false |}
                  one_client)).
  simpl. split.
  - intros [Hpath _]. discriminate Hpath.
  - intros [_ Hup]. discriminate Hup.
Defined.

Lemma post_config_rejected_iff_witness :
  (fetch sample_host (post_config (Some VNull)) one_client).2
  = Some invalid_json
  ∧ (fetch sample_host
       (post_config (Some (VObj {[ "clientId" := VNum 5 ]}))) one_client).2
    = Some (config_saved (VObj {[ "clientId" := VNum 5 ]})).
Proof.
  split.
  - destruct (post_config_rejected_iff sample_host (Some VNull) one_client)
      as [Hiff _].
    apply (proj2 Hiff). right. exists VNull. split; [reflexivity|].
    left. reflexivity.
  - destruct (post_config_rejected_iff sample_host
                (Some (VObj {[ "clientId" := VNum 5 ]})) one_client)
      as [_ Haccepted].
    destruct Haccepted as (config & Hparsed & Hresponse).
    + vm_compute. discriminate.
    + injection Hparsed as <-. exact Hresponse.
Defined.


Lemma inactive_connection_sent_nothing_witness :
  sent_to 2 (log (run sample_host one_client
                    [StreamItem (VStr "chunk"); Stderr "warning";
                     WsOpen 3; WsClose 1]))
  = [].
Proof.
  destruct (inactive_connection_sent_nothing sample_host one_client
              [StreamItem (VStr "chunk"); Stderr "warning"; WsOpen 3; WsClose 1]
              2) as [Hsent _].
  - vm_compute. discriminate.
  - intros Hin.
    repeat (apply elem_of_cons in Hin as [Hin|Hin]; [discriminate Hin|]).
    by apply elem_of_nil in Hin.
  - intros m Hin.
    repeat (apply elem_of_cons in Hin as [Hin|Hin]; [discriminate Hin|]).
    by apply elem_of_nil in Hin.
  - rewrite Hsent. vm_compute. reflexivity.
Defined.

Lemma stream_items_forwarded_in_order_witness :
  sent_to 1 (log (run sample_host one_client
                    [StreamItem (VStr "a"); StreamItem (VStr "b")]))
  = [Connected; SdkMessage (VStr "a"); SdkMessage (VStr "b")].
Proof.
  destruct (stream_items_forwarded_in_order sample_host one_client 1
              [VStr "a"; VStr "b"]) as [_ Hsent].
  - vm_compute. reflexivity.
  - vm_compute. reflexivity.
  - etrans; [exact Hsent|]. vm_compute. reflexivity.
Defined.

Lemma stream_failure_reported_once_witness :
  sent_to 1 (log (run sample_host one_client
                    [StreamThrow NotAnError; StreamItem (VStr "late")]))
  = [Connected; Error "Unknown error"].
Proof.
  destruct (stream_failure_reported_once sample_host one_client NotAnError
              [StreamItem (VStr "late")]) as (_ & _ & _ & _ & Hrun).
  - vm_compute. reflexivity.
  - repeat constructor.
  - rewrite run_cons, Hrun. vm_compute. reflexivity.
Defined.

Lemma reconnect_keeps_session_witness :
  sent_to 2 (log (run sample_host one_client [WsClose 1; WsOpen 2]))
  = [Connected].
Proof.
  rewrite (reconnect_keeps_session sample_host one_client 1 2
             {| options := effective_configuration sample_host (VObj ∅) VUndefined |}).
  - vm_compute. reflexivity.
  - vm_compute. reflexivity.
  - vm_compute. reflexivity.
Defined.

Lemma options_built_unless_null_witness :
  activeStream
    (step sample_host (with_queryConfig VNull (init sample_host)) (WsOpen 1))
  = None.
Proof.
  destruct (options_built_unless_null sample_host VNull
              (with_queryConfig VNull (init sample_host)) 1) as [_ Hopen].
  rewrite Hopen; reflexivity.
Defined.

Lemma stored_fields_reach_options_witness :
  effective_configuration sample_host overriding_config VUndefined
    !! "permissionMode"
  = Some (VStr "default").
Proof.
  apply (stored_fields_reach_options sample_host overriding_config).
  - vm_compute. reflexivity.
  - vm_compute. reflexivity.
  - discriminate.
Defined.

Lemma truncated_spec_witness :
  truncated 3 "abcdef" = "abc..." ∧ truncated 3 "abc" = "abc".
Proof.
  destruct (truncated_spec 3 "abcdef") as (_ & Hlong & _).
  destruct (truncated_spec 3 "abc") as (Hshort & _).
  split.
  - destruct Hlong as [Heq _]; [simpl; lia|]. rewrite Heq. reflexivity.
  - apply Hshort. simpl. lia.
Defined.

Lemma outputPath_basename_witness :
  outputPath ("charts/2024" +:+ "/" +:+ "chart.png") = "./output/chart.png".
Proof.
  destruct (outputPath_basename "charts/2024" "" "chart.png") as (_ & Hpath & _).
  - reflexivity.
  - rewrite Hpath. reflexivity.
Defined.
